(** * Disk scheduling simulator: SSTF, C-SCAN and the per-move table

    A shallow embedding of the scheduling core of [Simulation.py]:
    the functions [sstf] and [cscan], the loop of
    [DiskSchedulerApp.simulate] that recomputes, move by move, the
    distance, the latency and the cumulative seek shown in the table,
    and the animation callback [animate_seek_step] with
    [_draw_head_marker].

    Python integers are unbounded, so cylinders, distances and totals are
    [Z].  Python lists are [list]; [l[i]] is stdpp's lookup and
    [l[i] = x] stdpp's insert, with the [IndexError] Python raises out of
    range written out.  Python floats are IEEE binary64 numbers, taken
    from the specification of floating-point numbers of the standard
    library ([spec_float] at precision 53 and maximal exponent 1024). *)

From Stdlib Require Import ZArith Lia SpecFloat.
From stdpp Require Import base tactics option list sorting numbers.

Local Open Scope Z_scope.

(** ** Exceptions *)

(** The exceptions the modelled statements can raise: indexing a list
    with [None] ([TypeError]), indexing out of range ([IndexError]) and
    converting too large an integer to a float ([OverflowError]). *)
Inductive exn : Set := TypeError | IndexError | OverflowError.

Inductive result (A : Type) : Type :=
  | Ok (a : A)
  | Raise (e : exn).
Arguments Ok {A} a.
Arguments Raise {A} e.

#[global] Instance result_ret : MRet result := @Ok.
#[global] Instance result_fmap : FMap result := λ A B f m,
  match m with
  | Ok a => Ok (f a)
  | Raise e => Raise e
  end.
#[global] Instance result_bind : MBind result := λ A B k m,
  match m with
  | Ok a => k a
  | Raise e => Raise e
  end.

(** ** SSTF *)

(** The variables of [sstf] that the outer loop updates. *)
Record sstf_state : Type := SstfState {
  seq : list Z;
  total : Z;
  visited : list bool;
  cur : Z
}.

(** The pair [(nearest_idx, min_dist)] of the inner loop.  The source
    starts it at [(None, float("inf"))] and assigns both components
    together (lines 59-60), so the pair is either that initial value,
    [None] here, or [Some (i, d)] for an index [i] and an integer
    distance [d]. *)
Definition nearest : Type := option (nat * Z).

(** [d < min_dist]: every integer is below [float("inf")]. *)
Definition lt_min_dist (d : Z) (n : nearest) : bool :=
  match n with
  | None => true
  | Some (_, min_dist) => bool_decide (d < min_dist)
  end.

(** The inner loop [for i, r in enumerate(reqs)], from index [i] on. *)
Fixpoint scan (cur : Z) (visited : list bool) (i : nat) (reqs : list Z)
    (n : nearest) : result nearest :=
  match reqs with
  | [] => Ok n
  | r :: reqs' =>
      match visited !! i with
      | None => Raise IndexError
      | Some true => scan cur visited (S i) reqs' n
      | Some false =>
          let d := Z.abs (cur - r) in
          if lt_min_dist d n
          then scan cur visited (S i) reqs' (Some (i, d))
          else scan cur visited (S i) reqs' n
      end
  end.

(** One iteration of the outer loop [for _ in range(len(reqs))]. *)
Definition sstf_iter (reqs : list Z) (st : sstf_state) : result sstf_state :=
  n ← scan (cur st) (visited st) 0 reqs None;
  match n with
  | None => Raise TypeError
  | Some (nearest_idx, min_dist) =>
      if bool_decide (nearest_idx < length (visited st))%nat then
        match reqs !! nearest_idx with
        | None => Raise IndexError
        | Some r =>
            Ok {| seq := seq st ++ [r];
                  total := total st + min_dist;
                  visited := <[nearest_idx := true]> (visited st);
                  cur := r |}
        end
      else Raise IndexError
  end.

Fixpoint sstf_loop (k : nat) (reqs : list Z) (st : sstf_state)
    : result sstf_state :=
  match k with
  | O => Ok st
  | S k' => st' ← sstf_iter reqs st; sstf_loop k' reqs st'
  end.

(** The state before the first iteration. *)
Definition sstf_init (requests_list : list Z) (head : Z) : sstf_state :=
  {| seq := [];
     total := 0;
     visited := replicate (length requests_list) false;
     cur := head |}.

Definition sstf (requests_list : list Z) (head : Z) : result (list Z * Z) :=
  match requests_list with
  | [] => Ok ([], 0)
  | _ =>
      let reqs := requests_list in
      st ← sstf_loop (length reqs) reqs (sstf_init requests_list head);
      Ok (seq st, total st)
  end.

(** ** C-SCAN *)

(** Python's [sorted] on a list of integers. *)
Definition sorted (l : list Z) : list Z := merge_sort Z.le l.

(** The loop [for r in rs: total += abs(curr - r); curr = r;
    seq.append(curr)], used for [right] and then for [left]. *)
Fixpoint service (rs : list Z) (seq : list Z) (total curr : Z)
    : list Z * Z * Z :=
  match rs with
  | [] => (seq, total, curr)
  | r :: rs' => service rs' (seq ++ [r]) (total + Z.abs (curr - r)) r
  end.

Definition cscan (requests_list : list Z) (head disk_size : Z)
    (count_jump : bool) : list Z * Z :=
  match requests_list with
  | [] => ([], 0)
  | _ =>
      let left := sorted (filter (λ r, r < head) requests_list) in
      let right := sorted (filter (λ r, r >= head) requests_list) in
      let '(seq, total, curr) := service right [] 0 head in
      (* move to end *)
      let '(total, curr) :=
        if bool_decide (curr ≠ disk_size - 1)
        then (total + Z.abs ((disk_size - 1) - curr), disk_size - 1)
        else (total, curr) in
      (* jump to 0 *)
      let total := if count_jump then total + curr else total in
      let curr := 0 in
      let '(seq, total, curr) := service left seq total curr in
      (seq, total)
  end.

(** ** The per-move table of [simulate] *)

(** Python floats: IEEE binary64. *)
Definition float : Type := spec_float.

(** The float nearest to an integer, ties to even. *)
Definition float_round (z : Z) : float := binary_normalize 53 1024 z 0 false.

(** Float multiplication. *)
Definition float_mul (x y : float) : float := SFmul 53 1024 x y.

(** The midpoint between the largest float and [2^1024]: from there on
    an integer rounds out of the range of floats. *)
Definition float_int_limit : Z := 2 ^ 1024 - 2 ^ 970.

(** Converting an integer to a float rounds it, and raises
    [OverflowError] when the integer is too large. *)
Definition float_of_int (z : Z) : result float :=
  if bool_decide (Z.abs z < float_int_limit)
  then Ok (float_round z)
  else Raise OverflowError.

(** [n * x] for an integer [n] and a float [x]. *)
Definition int_mul_float (n : Z) (x : float) : result float :=
  f ← float_of_int n; Ok (float_mul f x).

(** The values a table row displays: the move number, the cylinder, the
    distance of the move, its latency and the cumulative seek. *)
Record table_row : Type := TableRow {
  lbl_move : nat;
  lbl_cyl : Z;
  lbl_dist : Z;
  lbl_lat : float;
  lbl_cum : Z
}.

(** The loop [for i, pos in enumerate(seq, start=1)] of [simulate], from
    move number [i] on; it returns the final [cumulative], [curr] and
    [table_rows]. *)
Fixpoint fill_table (seq : list Z) (i : nat) (ms_per_cyl : float)
    (cumulative curr : Z) (table_rows : list table_row)
    : result (Z * Z * list table_row) :=
  match seq with
  | [] => Ok (cumulative, curr, table_rows)
  | pos :: seq' =>
      let dist := Z.abs (curr - pos) in
      let cumulative := cumulative + dist in
      latency ← int_mul_float dist ms_per_cyl;
      let row := {| lbl_move := i; lbl_cyl := pos; lbl_dist := dist;
                    lbl_lat := latency; lbl_cum := cumulative |} in
      fill_table seq' (S i) ms_per_cyl cumulative pos (table_rows ++ [row])
  end.

Definition simulate_table (seq : list Z) (head : Z) (ms_per_cyl : float)
    : result (Z * Z * list table_row) :=
  fill_table seq 1 ms_per_cyl 0 head [].

(** ** The animation of [animate_seek_step] *)

(** Float addition and subtraction. *)
Definition float_add (x y : float) : float := SFadd 53 1024 x y.
Definition float_sub (x y : float) : float := SFsub 53 1024 x y.

(** The items the animation puts on the canvas, by their coordinates
    (the horizontal ones are floats, the vertical ones integers); a text
    item shows ["H:"] followed by the head position it is given.  Colours
    and widths are constants of the source and are left out. *)
Inductive canvas_item : Type :=
  | CanvasLine (x1 : float) (y1 : Z) (x2 : float) (y2 : Z)
  | CanvasOval (x1 : float) (y1 : Z) (x2 : float) (y2 : Z)
  | CanvasText (x : float) (y : Z) (head_pos : Z).

(** The attributes of the application the animation reads and writes;
    [gantt_canvas] is the list of the items created so far. *)
Record DiskSchedulerApp : Type := MkApp {
  seek_sequence : list Z;
  animation_index : nat;
  head_position : Z;
  scale_px : float;
  gantt_canvas : list canvas_item
}.

(** [_draw_head_marker(head_pos, final)]; [height] is what
    [winfo_height()] returns.  [scale_px] has been set by [simulate]
    before any call, so the default of [getattr] is not used. *)
Definition draw_head_marker (height : Z) (a : DiskSchedulerApp) (head_pos : Z)
    (final : bool) : result DiskSchedulerApp :=
  let y_mid := height `div` 2 in
  x ← int_mul_float head_pos (scale_px a);
  let r := if final then 7 else 5 in
  Ok {| seek_sequence := seek_sequence a;
        animation_index := animation_index a;
        head_position := head_position a;
        scale_px := scale_px a;
        gantt_canvas := gantt_canvas a ++
          [CanvasOval (float_sub x (float_round r)) (y_mid - r)
                      (float_add x (float_round r)) (y_mid + r);
           CanvasText x (y_mid - 16) head_pos] |}.

(** [animate_seek_step]: the boolean tells whether the step has
    scheduled the next one with [master.after]. *)
Definition animate_seek_step (height : Z) (a : DiskSchedulerApp) : result (bool * DiskSchedulerApp) :=
  if bool_decide (length (seek_sequence a) ≤ animation_index a)%nat then
    a' ← draw_head_marker height a (head_position a) true;
    Ok (false, a')
  else
    match seek_sequence a !! animation_index a with
    | None => Raise IndexError
    | Some next_pos =>
        let y_mid := height `div` 2 in
        curr_x ← int_mul_float (head_position a) (scale_px a);
        next_x ← int_mul_float next_pos (scale_px a);
        Ok (true,
            {| seek_sequence := seek_sequence a;
               animation_index := S (animation_index a);
               head_position := next_pos;
               scale_px := scale_px a;
               gantt_canvas := gantt_canvas a ++
                 [CanvasLine curr_x y_mid next_x y_mid;
                  CanvasOval (float_sub next_x (float_round 5)) (y_mid - 5)
                             (float_add next_x (float_round 5)) (y_mid + 5)]
            |})
    end.

(** The timer callbacks: [animate_seek_step] runs again as long as it
    schedules itself, at most [fuel] times; [None] when it is still
    scheduled after [fuel] steps. *)
Fixpoint run_animation (fuel : nat) (height : Z) (a : DiskSchedulerApp)
    : result (option DiskSchedulerApp) :=
  match fuel with
  | O => Ok None
  | S fuel' =>
      '(again, a') ← animate_seek_step height a;
      if again : bool then run_animation fuel' height a' else Ok (Some a')
  end.

(** ** Specification-side definitions *)

(** The distances of the successive moves along the path
    [curr -> seq[0] -> seq[1] -> ...]. *)
Fixpoint step_distances (curr : Z) (seq : list Z) : list Z :=
  match seq with
  | [] => []
  | pos :: seq' => Z.abs (curr - pos) :: step_distances pos seq'
  end.

(** Every cylinder of [seq] is at minimal distance from the position
    before it (from [curr] for the first one) among the cylinders that
    come after it in [seq] and those of [rest]. *)
Fixpoint nearest_first (curr : Z) (seq rest : list Z) : Prop :=
  match seq with
  | [] => True
  | pos :: seq' =>
      Forall (λ r, Z.abs (curr - pos) ≤ Z.abs (curr - r)) (seq' ++ rest) ∧
      nearest_first pos seq' rest
  end.

(** The horizontal canvas coordinate of a cylinder. *)
Definition canvas_x (scale_px : float) (c : Z) : float :=
  float_mul (float_round c) scale_px.

(** The line and the arrival dot of each move along the path
    [curr -> seq[0] -> seq[1] -> ...]. *)
Fixpoint trail (scale_px : float) (y_mid : Z) (curr : Z) (seq : list Z)
    : list canvas_item :=
  match seq with
  | [] => []
  | pos :: seq' =>
      CanvasLine (canvas_x scale_px curr) y_mid (canvas_x scale_px pos) y_mid
      :: CanvasOval (float_sub (canvas_x scale_px pos) (float_round 5))
                    (y_mid - 5)
                    (float_add (canvas_x scale_px pos) (float_round 5))
                    (y_mid + 5)
      :: trail scale_px y_mid pos seq'
  end.

(** The final head marker at cylinder [c]. *)
Definition final_marker (scale_px : float) (y_mid : Z) (c : Z)
    : list canvas_item :=
  [CanvasOval (float_sub (canvas_x scale_px c) (float_round 7)) (y_mid - 7)
              (float_add (canvas_x scale_px c) (float_round 7)) (y_mid + 7);
   CanvasText (canvas_x scale_px c) (y_mid - 16) c].


(** The sum of the absolute differences along the path
    [curr -> seq[0] -> seq[1] -> ...]. *)
Fixpoint path_cost (curr : Z) (seq : list Z) : Z :=
  match seq with
  | [] => 0
  | pos :: seq' => Z.abs (curr - pos) + path_cost pos seq'
  end.

(** The requests not yet visited, in request order. *)
Fixpoint pending (visited : list bool) (reqs : list Z) : list Z :=
  match visited, reqs with
  | v :: visited', r :: reqs' =>
      if v then pending visited' reqs' else r :: pending visited' reqs'
  | _, _ => []
  end.

(** [n] is the first unvisited request at minimal distance from [cur]
    among the indices below [i] (and [None] when all of them are
    visited). *)
Definition first_nearest (cur : Z) (visited : list bool) (reqs : list Z)
    (i : nat) (n : nearest) : Prop :=
  match n with
  | None => ∀ j, (j < i)%nat → visited !! j ≠ Some false
  | Some (idx, d) =>
      (idx < i)%nat ∧ visited !! idx = Some false ∧
      (∃ r, reqs !! idx = Some r ∧ d = Z.abs (cur - r)) ∧
      ∀ j r', (j < i)%nat → visited !! j = Some false → reqs !! j = Some r' →
        d ≤ Z.abs (cur - r') ∧ ((j < idx)%nat → d < Z.abs (cur - r'))
  end.

(** The invariant of the outer loop of [sstf] after [k] iterations. *)
Definition sstf_inv (reqs : list Z) (head : Z) (k : nat) (st : sstf_state)
    : Prop :=
  length (visited st) = length reqs ∧
  seq st ++ pending (visited st) reqs ≡ₚ reqs ∧
  length (seq st) = k ∧
  total st = path_cost head (seq st) ∧
  cur st = List.last (seq st) head.


(** The state of [sstf] with every cylinder moved by [f]. *)
Definition move_state (f : Z → Z) (st : sstf_state) : sstf_state :=
  {| seq := f <$> seq st;
     total := total st;
     visited := visited st;
     cur := f (cur st) |}.

(** The state of [sstf] scheduling [plan] itself once its first [k]
    entries are visited, in order. *)
Definition plan_state (plan : list Z) (head : Z) (k : nat) : sstf_state :=
  {| seq := take k plan;
     total := path_cost head (take k plan);
     visited := replicate k true ++ replicate (length plan - k) false;
     cur := List.last (take k plan) head |}.

(** * Properties *)

(** ** The inner loop of SSTF *)

Lemma scan_first_nearest cur visited reqs rs : ∀ i n,
  (length reqs ≤ length visited)%nat →
  drop i reqs = rs →
  first_nearest cur visited reqs i n →
  ∃ n', scan cur visited i rs n = Ok n' ∧
        first_nearest cur visited reqs (length reqs) n'.
Proof.
  induction rs as [|r rs IH]; intros i n Hlen Hdrop Hn.
  - exists n. split; [done|].
    assert (length reqs ≤ i)%nat as Hi.
    { apply (f_equal length) in Hdrop. rewrite length_drop in Hdrop.
      simpl in Hdrop. lia. }
    destruct n as [[idx d]|]; simpl in *.
    + destruct Hn as (Hidx & Hv & (r & Hr & Hd) & Hmin).
      apply lookup_lt_Some in Hr as Hlt.
      split_and!; [done|done|by exists r|].
      intros j r' _ Hj Hr'. apply Hmin; [|done|done].
      apply lookup_lt_Some in Hr'. lia.
    + intros j Hj. apply Hn. lia.
  - assert (reqs !! i = Some r) as Hr.
    { rewrite <-(Nat.add_0_r i), <-lookup_drop, Hdrop. done. }
    assert (drop (S i) reqs = rs) as Hdrop'.
    { replace (S i) with (i + 1)%nat by lia.
      rewrite <-drop_drop, Hdrop. done. }
    apply lookup_lt_Some in Hr as Hlt.
    destruct (lookup_lt_is_Some_2 visited i) as [v Hv]; [lia|].
    simpl. rewrite Hv. destruct v.
    + apply IH; [done|done|].
      destruct n as [[idx d]|]; simpl in *.
      * destruct Hn as (Hidx & Hvi & Hex & Hmin).
        split_and!; [lia|done|done|].
        intros j r' Hj Hvj Hr'.
        destruct (decide (j = i)) as [->|]; [congruence|].
        apply Hmin; [lia|done|done].
      * intros j Hj. destruct (decide (j = i)) as [->|]; [congruence|].
        apply Hn. lia.
    + destruct (lt_min_dist (Z.abs (cur - r)) n) eqn:Hlt_min.
      * apply IH; [done|done|]. simpl.
        split_and!; [lia|done|by exists r|].
        intros j r' Hj Hvj Hr'.
        destruct (decide (j = i)) as [->|].
        { simplify_eq. lia. }
        destruct n as [[idx d]|]; simpl in *.
        -- destruct Hn as (Hidx & Hvi & Hex & Hmin).
           apply bool_decide_eq_true in Hlt_min.
           destruct (Hmin j r') as [Hle _]; [lia|done|done|]. lia.
        -- exfalso. apply (Hn j); [lia|done].
      * apply IH; [done|done|].
        destruct n as [[idx d]|]; simpl in *; [|done].
        destruct Hn as (Hidx & Hvi & Hex & Hmin).
        apply bool_decide_eq_false in Hlt_min.
        split_and!; [lia|done|done|].
        intros j r' Hj Hvj Hr'.
        destruct (decide (j = i)) as [->|].
        { simplify_eq. lia. }
        apply Hmin; [lia|done|done].
Qed.

(** The selection made by one full scan: it succeeds, and it returns the
    first unvisited request at minimal distance. *)
Lemma scan_select cur visited reqs :
  (length reqs ≤ length visited)%nat →
  ∃ n, scan cur visited 0 reqs None = Ok n ∧
       first_nearest cur visited reqs (length reqs) n.
Proof.
  intros Hlen. apply scan_first_nearest; [done|done|].
  intros j Hj. lia.
Qed.

(** ** The outer loop of SSTF *)

Lemma pending_insert visited : ∀ reqs i r,
  visited !! i = Some false → reqs !! i = Some r →
  pending visited reqs ≡ₚ r :: pending (<[i:=true]> visited) reqs.
Proof.
  induction visited as [|v visited IH]; intros reqs i r Hv Hr; [done|].
  destruct reqs as [|r0 reqs]; [done|].
  destruct i as [|i]; simpl in *.
  - by simplify_eq.
  - destruct v; [by apply IH|].
    rewrite (IH reqs i r Hv Hr). apply Permutation_swap.
Qed.

Lemma pending_nil visited : ∀ reqs,
  (∀ j, (j < length reqs)%nat → visited !! j ≠ Some false) →
  pending visited reqs = [].
Proof.
  induction visited as [|v visited IH]; intros reqs Hall; [done|].
  destruct reqs as [|r reqs]; [done|]. simpl.
  destruct v.
  - apply IH. intros j Hj. apply (Hall (S j)). simpl. lia.
  - exfalso. apply (Hall O); [simpl; lia|done].
Qed.

Lemma pending_replicate (reqs : list Z) :
  pending (replicate (length reqs) false) reqs = reqs.
Proof. induction reqs as [|r reqs IH]; [done|]. simpl. by rewrite IH. Qed.

Lemma last_cons_default (seq : list Z) (pos curr : Z) :
  List.last (pos :: seq) curr = List.last seq pos.
Proof.
  revert pos curr. induction seq as [|x seq IH]; intros pos curr; [done|].
  change (List.last (x :: seq) curr = List.last (x :: seq) pos).
  by rewrite !IH.
Qed.

Lemma path_cost_snoc (seq : list Z) : ∀ curr r,
  path_cost curr (seq ++ [r]) =
  path_cost curr seq + Z.abs (List.last seq curr - r).
Proof.
  induction seq as [|pos seq IH]; intros curr r.
  - simpl. lia.
  - cbn [path_cost app]. rewrite IH, last_cons_default. lia.
Qed.

Lemma sstf_init_inv reqs head : sstf_inv reqs head 0 (sstf_init reqs head).
Proof.
  unfold sstf_inv, sstf_init. simpl.
  rewrite length_replicate, pending_replicate. done.
Qed.

(** One iteration from a state satisfying the invariant, with requests
    left: the scan selects the first nearest unvisited request [r], at
    index [idx], and the iteration appends it. *)
Lemma sstf_iter_inv reqs head k st :
  sstf_inv reqs head k st → (k < length reqs)%nat →
  ∃ idx r,
    scan (cur st) (visited st) 0 reqs None
      = Ok (Some (idx, Z.abs (cur st - r))) ∧
    first_nearest (cur st) (visited st) reqs (length reqs)
      (Some (idx, Z.abs (cur st - r))) ∧
    reqs !! idx = Some r ∧
    sstf_iter reqs st =
      Ok {| seq := seq st ++ [r];
            total := total st + Z.abs (cur st - r);
            visited := <[idx := true]> (visited st);
            cur := r |} ∧
    sstf_inv reqs head (S k)
      {| seq := seq st ++ [r];
         total := total st + Z.abs (cur st - r);
         visited := <[idx := true]> (visited st);
         cur := r |}.
Proof.
  intros (Hlen & Hperm & Hk & Htotal & Hcur) Hlt.
  destruct (scan_select (cur st) (visited st) reqs) as (n & Hscan & Hn); [lia|].
  destruct n as [[idx d]|]; simpl in Hn.
  - destruct Hn as (Hidx & Hv & (r & Hr & ->) & Hmin).
    exists idx, r. split_and!; [done| |done| |].
    + simpl. split_and!; [done|done|by exists r|done].
    + unfold sstf_iter. rewrite Hscan. simpl.
      rewrite bool_decide_eq_true_2 by lia. by rewrite Hr.
    + unfold sstf_inv. simpl. split_and!.
      * by rewrite length_insert.
      * rewrite <-Hperm at 2. rewrite <-(assoc_L (++)). simpl.
        by rewrite <-pending_insert.
      * rewrite length_app. simpl. lia.
      * rewrite path_cost_snoc, <-Htotal, <-Hcur. done.
      * by rewrite last_last.
  - exfalso. apply pending_nil in Hn.
    rewrite Hn, (right_id_L [] (++)) in Hperm.
    apply Permutation_length in Hperm. lia.
Qed.

Lemma sstf_loop_inv reqs head m : ∀ k st,
  sstf_inv reqs head k st → (k + m ≤ length reqs)%nat →
  ∃ st', sstf_loop m reqs st = Ok st' ∧ sstf_inv reqs head (k + m) st'.
Proof.
  induction m as [|m IH]; intros k st Hinv Hle.
  - exists st. by rewrite Nat.add_0_r.
  - destruct (sstf_iter_inv reqs head k st Hinv) as (idx & r & _ & _ & _ & Hit & Hinv');
      [lia|].
    destruct (IH _ _ Hinv') as (st' & Hloop & Hinv''); [lia|].
    exists st'. simpl. rewrite Hit. simpl.
    replace (k + S m)%nat with (S k + m)%nat by lia. done.
Qed.

Lemma sstf_loop_add reqs a : ∀ b st,
  sstf_loop (a + b) reqs st = st' ← sstf_loop a reqs st; sstf_loop b reqs st'.
Proof.
  induction a as [|a IH]; intros b st; [done|]. simpl.
  destruct (sstf_iter reqs st) as [st1|e]; simpl; [apply IH|done].
Qed.

Lemma sstf_loop_step reqs k m st0 st st1 st2 :
  sstf_loop k reqs st0 = Ok st →
  sstf_iter reqs st = Ok st1 →
  sstf_loop m reqs st1 = Ok st2 →
  sstf_loop (k + S m) reqs st0 = Ok st2.
Proof.
  intros Hk Hit Hm. rewrite sstf_loop_add, Hk.
  cbn [mbind result_bind sstf_loop]. rewrite Hit. exact Hm.
Qed.

Lemma sstf_loop_prefix reqs m : ∀ st st',
  sstf_loop m reqs st = Ok st' → seq st `prefix_of` seq st'.
Proof.
  induction m as [|m IH]; intros st st' Hloop; simpl in Hloop.
  - by simplify_eq.
  - destruct (sstf_iter reqs st) as [st1|e] eqn:Hit; simpl in Hloop; [|done].
    apply IH in Hloop. etrans; [|exact Hloop].
    unfold sstf_iter in Hit.
    destruct (scan _ _ _ _ _) as [[[i d]|]|]; simpl in Hit; try done.
    case_bool_decide; [|done].
    destruct (reqs !! i); [|done]. simplify_eq. simpl.
    by apply prefix_app_r.
Qed.

(** [sstf] returns, and what it returns is the sequence and the total of
    a final state satisfying the invariant. *)
Lemma sstf_returns reqs head :
  ∃ seq total,
    sstf reqs head = Ok (seq, total) ∧
    seq ≡ₚ reqs ∧ total = path_cost head seq.
Proof.
  destruct (sstf_loop_inv reqs head (length reqs) 0 (sstf_init reqs head))
    as (st & Hloop & Hlen & Hperm & Hk & Htotal & Hcur);
    [apply sstf_init_inv|lia|].
  exists (seq st), (total st).
  assert (pending (visited st) reqs = []) as Hnil.
  { apply Permutation_length in Hperm. rewrite length_app in Hperm.
    apply nil_length_inv. simpl in Hk. lia. }
  rewrite Hnil, (right_id_L [] (++)) in Hperm.
  split_and!; [|done|done].
  unfold sstf. destruct reqs as [|r reqs].
  - simpl in Hloop. by simplify_eq.
  - rewrite Hloop. done.
Qed.

(** ** C-SCAN *)

#[local] Instance Z_le_antisymm : AntiSymm (=) Z.le.
Proof. intros x y ??. lia. Qed.

Lemma sorted_perm (l : list Z) : sorted l ≡ₚ l.
Proof. apply merge_sort_Permutation. Qed.

Lemma sorted_Sorted (l : list Z) : Sorted Z.le (sorted l).
Proof. apply (Sorted_merge_sort Z.le). Qed.

Lemma sorted_unique (l1 l2 : list Z) : l1 ≡ₚ l2 → sorted l1 = sorted l2.
Proof.
  intros Hperm. apply (Sorted_unique Z.le); [apply sorted_Sorted..|].
  by rewrite !sorted_perm.
Qed.

Lemma partition_perm (head : Z) (reqs : list Z) :
  filter (λ r, r >= head) reqs ++ filter (λ r, r < head) reqs ≡ₚ reqs.
Proof.
  induction reqs as [|r reqs IH]; [done|].
  rewrite !filter_cons. repeat case_decide; try lia; simpl.
  - by rewrite IH.
  - by rewrite <-Permutation_middle, IH.
Qed.

Lemma service_spec rs : ∀ seq total curr,
  service rs seq total curr =
  (seq ++ rs, total + path_cost curr rs, List.last rs curr).
Proof.
  induction rs as [|r rs IH]; intros seq total curr.
  - simpl. by rewrite (right_id_L [] (++)), Z.add_0_r.
  - cbn [service path_cost]. rewrite IH, last_cons_default.
    rewrite <-(assoc_L (++)), Z.add_assoc. done.
Qed.

(** [cscan] on a non-empty request list, in closed form: the visit order
    is [right] then [left]; the total is the cost of servicing [right]
    from [head], the move from the last position to [disk_size - 1], the
    jump when it is counted, and the cost of servicing [left] from 0. *)
Lemma cscan_nonempty reqs head disk_size count_jump :
  reqs ≠ [] →
  let left := sorted (filter (λ r, r < head) reqs) in
  let right := sorted (filter (λ r, r >= head) reqs) in
  cscan reqs head disk_size count_jump =
  (right ++ left,
   path_cost head right + Z.abs ((disk_size - 1) - List.last right head)
   + (if count_jump then disk_size - 1 else 0) + path_cost 0 left).
Proof.
  intros Hne left right. unfold cscan.
  destruct reqs as [|r0 reqs]; [done|].
  fold left right. rewrite service_spec. simpl app.
  case_bool_decide as Hcurr.
  - rewrite service_spec. f_equal. destruct count_jump; lia.
  - rewrite service_spec, Hcurr. f_equal.
    destruct count_jump; lia.
Qed.

Lemma cscan_perm reqs head disk_size count_jump :
  (cscan reqs head disk_size count_jump).1 ≡ₚ reqs.
Proof.
  destruct (decide (reqs = [])) as [->|Hne]; [done|].
  rewrite cscan_nonempty by done. simpl.
  rewrite !sorted_perm. apply partition_perm.
Qed.

(** ** The per-move table *)

(** The limit is where rounding leaves the floats: just below it an
    integer rounds to the largest float, at it to infinity, which the
    conversion reports as [OverflowError]. *)
Example float_round_below_limit :
  float_round (float_int_limit - 1)
    = S754_finite false (2 ^ 53 - 1) (1024 - 53) ∧
  float_round float_int_limit = S754_infinity false ∧
  float_of_int float_int_limit = Raise OverflowError.
Proof. by vm_compute. Qed.

Lemma float_of_int_small (z : Z) :
  Z.abs z < float_int_limit → float_of_int z = Ok (float_round z).
Proof. intros Hz. unfold float_of_int. by rewrite bool_decide_eq_true_2. Qed.

Lemma fill_table_spec disk_size ms seq : ∀ i cumulative curr rows,
  disk_size ≤ float_int_limit →
  0 ≤ curr < disk_size →
  Forall (λ c, 0 ≤ c < disk_size) seq →
  ∃ rows',
    fill_table seq i ms cumulative curr rows =
      Ok (cumulative + path_cost curr seq, List.last seq curr, rows ++ rows') ∧
    length rows' = length seq ∧
    ∀ j target, seq !! j = Some target →
      rows' !! j =
        Some {| lbl_move := i + j;
                lbl_cyl := target;
                lbl_dist := Z.abs (List.last (take j seq) curr - target);
                lbl_lat := float_mul
                  (float_round (Z.abs (List.last (take j seq) curr - target)))
                  ms;
                lbl_cum := cumulative + path_cost curr (take (S j) seq) |}.
Proof.
  induction seq as [|pos seq IH]; intros i cumulative curr rows Hlim Hcurr Hseq.
  - exists []. simpl. rewrite (right_id_L [] (++)), Z.add_0_r. done.
  - apply Forall_cons_1 in Hseq as [Hpos Hseq].
    cbn [fill_table path_cost]. unfold int_mul_float.
    rewrite last_cons_default, float_of_int_small by lia. simpl.
    edestruct (IH (S i) (cumulative + Z.abs (curr - pos)) pos) as (rows' & Hfill & Hlen & Hrows);
      [done..|].
    rewrite Hfill. eexists (_ :: rows').
    split_and!.
    + rewrite <-(assoc_L (++)), Z.add_assoc. done.
    + simpl. by rewrite Hlen.
    + intros [|j] target Hj; simpl in Hj.
      * simplify_eq. simpl. rewrite Nat.add_0_r.
        destruct seq; simpl; (f_equal; f_equal; lia).
      * change ((?x :: rows') !! S j) with (rows' !! j).
        rewrite (Hrows j target Hj).
        cbn [take]. rewrite last_cons_default. cbn [path_cost].
        f_equal. f_equal; lia.
Qed.

(** * The claims *)

(** ** Permutation *)

(** C1: for every request list and head, the visit order of [sstf] is a
    permutation of the request list, and so is the visit order of
    [cscan], for every disk size and jump flag; sorting either visit
    order gives the sorted request list. *)
Theorem visit_order_permutation (reqs : list Z) (head disk_size : Z)
    (count_jump : bool) :
  (∃ seq total,
     sstf reqs head = Ok (seq, total) ∧
     seq ≡ₚ reqs ∧ sorted seq = sorted reqs) ∧
  (cscan reqs head disk_size count_jump).1 ≡ₚ reqs ∧
  sorted (cscan reqs head disk_size count_jump).1 = sorted reqs.
Proof.
  split.
  - destruct (sstf_returns reqs head) as (seq & total & Hsstf & Hperm & _).
    exists seq, total. auto using sorted_unique.
  - pose proof (cscan_perm reqs head disk_size count_jump) as Hperm.
    auto using sorted_unique.
Qed.

(** ** The jump flag of C-SCAN *)

(** C2, as stated, fails when [left] is empty: with the single request
    60, the head at 50 and 200 cylinders, no request is below the head,
    and yet the total is 348 when the jump is counted and 149 when it
    is not. *)
Lemma cscan_jump_flag_left_empty :
  filter (λ r, r < 50) [60] = [] ∧
  cscan [60] 50 200 true = ([60], 348) ∧
  cscan [60] 50 200 false = ([60], 149) ∧
  (cscan [60] 50 200 false).2 ≠ (cscan [60] 50 200 true).2.
Proof. by vm_compute. Qed.

(** C2, amended: for every non-empty request list, head and disk size,
    the total of [cscan] without the jump cost is the total with the
    jump cost minus [disk_size - 1], whether or not a request lies below
    the head; the visit order does not depend on the flag, and the
    totals agree only when [disk_size] is 1. *)
Theorem cscan_jump_flag (reqs : list Z) (head disk_size : Z) :
  reqs ≠ [] →
  (cscan reqs head disk_size false).2 =
    (cscan reqs head disk_size true).2 - (disk_size - 1) ∧
  (cscan reqs head disk_size false).1 = (cscan reqs head disk_size true).1 ∧
  ((cscan reqs head disk_size false).2 = (cscan reqs head disk_size true).2
     ↔ disk_size = 1).
Proof.
  intros Hne. rewrite !cscan_nonempty by done. simpl.
  split_and!; [lia|done|lia].
Qed.

Lemma cscan_jump_flag_witness :
  (cscan [60] 50 200 false).2 = (cscan [60] 50 200 true).2 - (200 - 1) ∧
  (cscan [60] 50 200 false).1 = (cscan [60] 50 200 true).1 ∧
  ((cscan [60] 50 200 false).2 = (cscan [60] 50 200 true).2 ↔ 200 = 1).
Proof. apply (cscan_jump_flag [60] 50 200). discriminate. Defined.

(** ** The textbook request list *)

(** C3, as stated, fails: on the requests 98, 183, 37, 122, 14, 124, 65,
    67 with the head at 53, [sstf] does not return a total of 640. *)
Lemma sstf_example_total_not_640 :
  ¬ ∃ seq, sstf [98; 183; 37; 122; 14; 124; 65; 67] 53 = Ok (seq, 640).
Proof. intros [seq Hsstf]. vm_compute in Hsstf. discriminate. Qed.

(** C3, amended: on that input the first iteration selects cylinder 65
    (index 6) at distance 12, and [sstf] returns the visit order 65, 67,
    37, 14, 98, 122, 124, 183 with a total seek of 236. *)
Theorem sstf_example :
  let reqs := [98; 183; 37; 122; 14; 124; 65; 67] in
  scan 53 (replicate 8 false) 0 reqs None = Ok (Some (6%nat, 12)) ∧
  seq <$> sstf_iter reqs (sstf_init reqs 53) = Ok [65] ∧
  total <$> sstf_iter reqs (sstf_init reqs 53) = Ok 12 ∧
  sstf reqs 53 = Ok ([65; 67; 37; 14; 98; 122; 124; 183], 236).
Proof. by vm_compute. Qed.

(** ** The tie-break of SSTF *)

(** C4: at every step [k] of the greedy selection, the scan of the
    state [st] reached after [k] iterations selects an unvisited request
    [r], at index [idx], that is at minimal distance from the current
    position among the unvisited requests, and every unvisited request
    at the same distance has an index at least [idx]: among equidistant
    candidates the earliest in the request list is selected.  It is the
    request [sstf] returns at position [k] of the visit order. *)
Theorem sstf_tie_break (reqs : list Z) (head : Z) (k : nat) :
  (k < length reqs)%nat →
  ∃ st idx r out_seq out_total,
    sstf_loop k reqs (sstf_init reqs head) = Ok st ∧
    scan (cur st) (visited st) 0 reqs None
      = Ok (Some (idx, Z.abs (cur st - r))) ∧
    visited st !! idx = Some false ∧
    reqs !! idx = Some r ∧
    (∀ j r', visited st !! j = Some false → reqs !! j = Some r' →
       Z.abs (cur st - r) ≤ Z.abs (cur st - r') ∧
       (Z.abs (cur st - r') = Z.abs (cur st - r) → (idx ≤ j)%nat)) ∧
    sstf reqs head = Ok (out_seq, out_total) ∧
    out_seq !! k = Some r.
Proof.
  intros Hk.
  destruct (sstf_loop_inv reqs head k 0 (sstf_init reqs head))
    as (st & Hloop & Hinv); [apply sstf_init_inv|lia|].
  simpl in Hinv.
  destruct (sstf_iter_inv reqs head k st Hinv Hk)
    as (idx & r & Hscan & Hfirst & Hr & Hit & Hinv').
  destruct (sstf_loop_inv reqs head (length reqs - S k) (S k) _ Hinv')
    as (st' & Hloop' & _); [lia|].
  exists st, idx, r, (seq st'), (total st').
  destruct Hfirst as (_ & Hv & _ & Hmin).
  split_and!; [done..| | |].
  - intros j r' Hj Hr'.
    destruct (Hmin j r') as [Hle Hlt]; [by eapply lookup_lt_Some|done|done|].
    split; [done|]. intros Heq.
    destruct (decide (j < idx)%nat) as [Hji|]; [|lia].
    apply Hlt in Hji. lia.
  - assert (sstf_loop (length reqs) reqs (sstf_init reqs head) = Ok st')
      as Hfull.
    { replace (length reqs) with (k + S (length reqs - S k))%nat at 1 by lia.
      by apply (sstf_loop_step _ _ _ _ st _ _ Hloop Hit). }
    unfold sstf. destruct reqs as [|r0 reqs]; [simpl in Hk; lia|].
    by rewrite Hfull.
  - apply sstf_loop_prefix in Hloop'. simpl in Hloop'.
    apply (prefix_lookup_Some _ _ _ _ (list_lookup_middle _ [] _ _ eq_refl))
      in Hloop'.
    destruct Hinv as (_ & _ & Hlen & _). by rewrite Hlen in Hloop'.
Qed.

(** With the head at 20, the requests 10 and 30 are both at distance 10:
    the first step selects 10, the earlier of the two. *)
Lemma sstf_tie_break_witness :
  ∃ st idx r out_seq out_total,
    sstf_loop 0 [10; 30] (sstf_init [10; 30] 20) = Ok st ∧
    scan (cur st) (visited st) 0 [10; 30] None
      = Ok (Some (idx, Z.abs (cur st - r))) ∧
    visited st !! idx = Some false ∧
    [10; 30] !! idx = Some r ∧
    (∀ j r', visited st !! j = Some false → [10; 30] !! j = Some r' →
       Z.abs (cur st - r) ≤ Z.abs (cur st - r') ∧
       (Z.abs (cur st - r') = Z.abs (cur st - r) → (idx ≤ j)%nat)) ∧
    sstf [10; 30] 20 = Ok (out_seq, out_total) ∧
    out_seq !! 0%nat = Some r.
Proof. apply (sstf_tie_break [10; 30] 20 0). simpl. lia. Defined.

(** ** A head outside the disk *)

(** C5, as stated, fails: with the head at 300 on a disk of 200
    cylinders, both schedulers return a plan instead of raising. *)
Lemma head_out_of_range_plan_returned :
  ¬ (0 ≤ 300 ≤ 200 - 1) ∧
  sstf [10] 300 = Ok ([10], 290) ∧
  cscan [10] 300 200 true = ([10], 310).
Proof. split; [lia|]. by vm_compute. Qed.

(** C5, amended: neither scheduler checks the head against the disk
    size.  For a head outside [0, disk_size - 1], [sstf] (which does not
    take the disk size) raises nothing and returns a complete plan, its
    visit order a permutation of the requests and its total the cost of
    the path from the head; [cscan], which cannot raise, returns a plan
    whose visit order is a permutation of the requests as well. *)
Theorem head_out_of_range_unchecked (reqs : list Z) (head disk_size : Z)
    (count_jump : bool) :
  ¬ (0 ≤ head ≤ disk_size - 1) →
  (∃ seq total,
     sstf reqs head = Ok (seq, total) ∧
     seq ≡ₚ reqs ∧ total = path_cost head seq) ∧
  (cscan reqs head disk_size count_jump).1 ≡ₚ reqs.
Proof.
  intros _. split; [apply sstf_returns|apply cscan_perm].
Qed.

Lemma head_out_of_range_unchecked_witness :
  (∃ seq total,
     sstf [10] 300 = Ok (seq, total) ∧
     seq ≡ₚ [10] ∧ total = path_cost 300 seq) ∧
  (cscan [10] 300 200 true).1 ≡ₚ [10].
Proof. apply (head_out_of_range_unchecked [10] 300 200 true). lia. Defined.

(** ** The boundary move of C-SCAN *)

(** C6: for every non-empty request list, servicing [right] from the
    head leaves the position at the last cylinder of [right] (at the
    head when [right] is empty); the total then grows by the distance
    from that position to [disk_size - 1] (zero when it is already
    there), also when [right] is empty, and the jump is charged from
    [disk_size - 1].  The visit order is [right] followed by [left]:
    [disk_size - 1] occurs in it only as a requested cylinder, and for a
    head at most [disk_size - 1] only as one of [right]. *)
Theorem cscan_boundary_move (reqs : list Z) (head disk_size : Z)
    (count_jump : bool) :
  reqs ≠ [] →
  let left := sorted (filter (λ r, r < head) reqs) in
  let right := sorted (filter (λ r, r >= head) reqs) in
  service right [] 0 head
    = (right, path_cost head right, List.last right head) ∧
  cscan reqs head disk_size count_jump =
    (right ++ left,
     path_cost head right + Z.abs ((disk_size - 1) - List.last right head)
     + (if count_jump then disk_size - 1 else 0) + path_cost 0 left) ∧
  (right = [] →
   cscan reqs head disk_size count_jump =
     (left,
      Z.abs ((disk_size - 1) - head)
      + (if count_jump then disk_size - 1 else 0) + path_cost 0 left)) ∧
  ((disk_size - 1) ∈ (cscan reqs head disk_size count_jump).1 →
   (disk_size - 1) ∈ reqs ∧ (head ≤ disk_size - 1 → (disk_size - 1) ∈ right)).
Proof.
  intros Hne left right. split_and!.
  - by rewrite service_spec.
  - by apply cscan_nonempty.
  - intros Hright. rewrite cscan_nonempty by done.
    fold left right. rewrite Hright. simpl. f_equal.
  - rewrite cscan_nonempty by done. fold left right. simpl.
    intros Hin. split.
    + pose proof Hin as Hin'. unfold left, right in Hin'.
      by rewrite !sorted_perm, partition_perm in Hin'.
    + intros Hhead. apply elem_of_app in Hin as [Hin|Hin]; [done|].
      unfold left in Hin. rewrite sorted_perm in Hin.
      apply list_elem_of_filter in Hin as [Hlt _]. lia.
Qed.

(** No request at or above the head 150: the total still contains the
    move from 150 to the last cylinder 199. *)
Lemma cscan_boundary_move_witness :
  let left := sorted (filter (λ r, r < 150) [20; 40]) in
  let right := sorted (filter (λ r, r >= 150) [20; 40]) in
  service right [] 0 150
    = (right, path_cost 150 right, List.last right 150) ∧
  cscan [20; 40] 150 200 true =
    (right ++ left,
     path_cost 150 right + Z.abs ((200 - 1) - List.last right 150)
     + (200 - 1) + path_cost 0 left) ∧
  (right = [] →
   cscan [20; 40] 150 200 true =
     (left, Z.abs ((200 - 1) - 150) + (200 - 1) + path_cost 0 left)) ∧
  ((200 - 1) ∈ (cscan [20; 40] 150 200 true).1 →
   (200 - 1) ∈ [20; 40] ∧ (150 ≤ 200 - 1 → (200 - 1) ∈ right)).
Proof. apply (cscan_boundary_move [20; 40] 150 200 true). discriminate. Defined.

(** ** The per-move table *)



(** ** The empty request list *)

(** C8: on the empty request list both schedulers return the empty visit
    order and a total of 0, whatever the head, the disk size and the
    jump flag: [sstf] raises nothing, and [cscan] returns before the move
    to the last cylinder and the jump, which add nothing. *)
Theorem empty_request_list (head disk_size : Z) (count_jump : bool) :
  sstf [] head = Ok ([], 0) ∧
  cscan [] head disk_size count_jump = ([], 0).
Proof. done. Qed.

(** ** The textbook request list under C-SCAN *)

(** C9: on the requests 98, 183, 37, 122, 14, 124, 65, 67 with the head
    at 53, 200 cylinders and the jump counted, [cscan] returns a total
    of 382 and the visit order 65, 67, 98, 122, 124, 183, 14, 37: the
    requests at or above the head in ascending order, then those below
    it in ascending order. *)
Theorem cscan_example :
  let reqs := [98; 183; 37; 122; 14; 124; 65; 67] in
  cscan reqs 53 200 true = ([65; 67; 98; 122; 124; 183; 14; 37], 382) ∧
  sorted (filter (λ r, r >= 53) reqs) = [65; 67; 98; 122; 124; 183] ∧
  sorted (filter (λ r, r < 53) reqs) = [14; 37].
Proof. by vm_compute. Qed.

(** * Further properties *)

(** ** The sweep of C-SCAN *)

Lemma Forall_sorted (P : Z → Prop) (l : list Z) :
  Forall P (sorted l) ↔ Forall P l.
Proof. by rewrite sorted_perm. Qed.

Lemma Forall_filter_ge (head : Z) (l : list Z) :
  Forall (λ r, head ≤ r) (filter (λ r, r >= head) l).
Proof.
  apply list.Forall_forall. intros x Hx.
  apply list_elem_of_filter in Hx as [? _]. lia.
Qed.

Lemma Forall_filter_lt (head : Z) (l : list Z) :
  Forall (λ r, r < head) (filter (λ r, r < head) l).
Proof.
  apply list.Forall_forall. intros x Hx.
  by apply list_elem_of_filter in Hx as [? _].
Qed.

Lemma sorted_StronglySorted (l : list Z) : StronglySorted Z.le (sorted l).
Proof. apply (Sorted_StronglySorted Z.le), sorted_Sorted. Qed.

Lemma last_Forall (P : Z → Prop) (l : list Z) (d : Z) :
  Forall P l → P d → P (List.last l d).
Proof.
  revert d. induction l as [|x l IH]; intros d Hl Hd; [done|].
  apply Forall_cons_1 in Hl as [Hx Hl].
  rewrite last_cons_default. by apply IH.
Qed.

Lemma path_cost_nonneg (seq : list Z) : ∀ curr, 0 ≤ path_cost curr seq.
Proof.
  induction seq as [|pos seq IH]; intros curr; simpl; [done|].
  specialize (IH pos). lia.
Qed.

(** Along an ascending list that starts at or above the current
    position, the cost is the distance to its last element. *)
Lemma path_cost_ascending (seq : list Z) : ∀ curr,
  StronglySorted Z.le seq → Forall (λ r, curr ≤ r) seq →
  path_cost curr seq = List.last seq curr - curr.
Proof.
  induction seq as [|pos seq IH]; intros curr Hsorted Hge.
  - simpl. lia.
  - apply StronglySorted_inv in Hsorted as [Hsorted Hpos].
    apply Forall_cons_1 in Hge as [Hcurr _].
    cbn [path_cost]. rewrite last_cons_default, (IH pos Hsorted Hpos). lia.
Qed.

Lemma Sorted_le_NoDup_lt (l : list Z) :
  StronglySorted Z.le l → NoDup l → StronglySorted Z.lt l.
Proof.
  induction 1 as [|x l Hl IH Hx]; intros Hnd; [constructor|].
  apply list.NoDup_cons in Hnd as [Hnotin Hnd].
  constructor; [by apply IH|].
  apply list.Forall_forall. intros y Hy.
  rewrite list.Forall_forall in Hx. specialize (Hx y Hy).
  assert (x ≠ y) by (intros ->; done). lia.
Qed.

Lemma NoDup_sorted_filter (P : Z → Prop) `{!∀ x, Decision (P x)} (l : list Z) :
  NoDup l → NoDup (sorted (filter P l)).
Proof. intros Hnd. rewrite sorted_perm. by apply list.NoDup_filter. Qed.

(** X1: the visit order of [cscan] is the requests at or above the head
    in ascending order followed by the requests below the head in
    ascending order; equal requests stay next to each other. *)
Theorem cscan_sweep_order (reqs : list Z) (head disk_size : Z)
    (count_jump : bool) :
  ∃ right left,
    (cscan reqs head disk_size count_jump).1 = right ++ left ∧
    right ≡ₚ filter (λ r, r >= head) reqs ∧
    left ≡ₚ filter (λ r, r < head) reqs ∧
    StronglySorted Z.le right ∧ Forall (λ r, head ≤ r) right ∧
    StronglySorted Z.le left ∧ Forall (λ r, r < head) left.
Proof.
  exists (sorted (filter (λ r, r >= head) reqs)),
         (sorted (filter (λ r, r < head) reqs)).
  split_and!; try apply sorted_perm; try apply sorted_StronglySorted.
  - destruct (decide (reqs = [])) as [->|Hne]; [done|].
    by rewrite cscan_nonempty.
  - apply Forall_sorted. apply Forall_filter_ge.
  - apply Forall_sorted. apply Forall_filter_lt.
Qed.

(** X2: when the requests are pairwise distinct, both sweeps of [cscan]
    are strictly ascending. *)
Theorem cscan_sweep_strict (reqs : list Z) (head disk_size : Z)
    (count_jump : bool) :
  NoDup reqs →
  ∃ right left,
    (cscan reqs head disk_size count_jump).1 = right ++ left ∧
    StronglySorted Z.lt right ∧ Forall (λ r, head ≤ r) right ∧
    StronglySorted Z.lt left ∧ Forall (λ r, r < head) left.
Proof.
  intros Hnd.
  exists (sorted (filter (λ r, r >= head) reqs)),
         (sorted (filter (λ r, r < head) reqs)).
  split_and!.
  - destruct (decide (reqs = [])) as [->|Hne]; [done|].
    by rewrite cscan_nonempty.
  - apply Sorted_le_NoDup_lt; [apply sorted_StronglySorted|].
    by apply NoDup_sorted_filter.
  - apply Forall_sorted. apply Forall_filter_ge.
  - apply Sorted_le_NoDup_lt; [apply sorted_StronglySorted|].
    by apply NoDup_sorted_filter.
  - apply Forall_sorted. apply Forall_filter_lt.
Qed.

Lemma cscan_sweep_strict_witness :
  ∃ right left,
    (cscan [98; 183; 37; 122] 53 200 true).1 = right ++ left ∧
    StronglySorted Z.lt right ∧ Forall (λ r, 53 ≤ r) right ∧
    StronglySorted Z.lt left ∧ Forall (λ r, r < 53) left.
Proof.
  apply (cscan_sweep_strict [98; 183; 37; 122] 53 200 true).
  apply (bool_decide_unpack _). vm_compute. exact I.
Defined.

(** X3: for a non-empty request list and a head, both within the disk,
    the total of [cscan] is the distance from the head to the last
    cylinder, the jump when it is counted, and the largest request below
    the head (nothing when there is none): the requests at or above the
    head do not change the total. *)
Theorem cscan_total_in_range (reqs : list Z) (head disk_size : Z)
    (count_jump : bool) :
  reqs ≠ [] →
  0 ≤ head ≤ disk_size - 1 →
  Forall (λ r, 0 ≤ r ≤ disk_size - 1) reqs →
  let left := sorted (filter (λ r, r < head) reqs) in
  (cscan reqs head disk_size count_jump).2 =
    (disk_size - 1 - head)
    + (if count_jump then disk_size - 1 else 0)
    + List.last left 0 ∧
  Forall (λ r, r ≤ List.last left 0) left.
Proof.
  intros Hne Hhead Hreqs left.
  set (right := sorted (filter (λ r, r >= head) reqs)).
  assert (Forall (λ r, head ≤ r) right) as Hright.
  { apply Forall_sorted. apply Forall_filter_ge. }
  assert (Forall (λ r, r ≤ disk_size - 1) right) as Hright'.
  { apply Forall_sorted. apply list.Forall_forall. intros r Hr.
    apply list_elem_of_filter in Hr as [_ Hr].
    rewrite list.Forall_forall in Hreqs. apply Hreqs in Hr. lia. }
  assert (Forall (λ r, 0 ≤ r) left) as Hleft.
  { apply Forall_sorted. apply list.Forall_forall. intros r Hr.
    apply list_elem_of_filter in Hr as [_ Hr].
    rewrite list.Forall_forall in Hreqs. apply Hreqs in Hr. lia. }
  pose proof (last_Forall (λ r, head ≤ r) right head Hright) as Hlast1.
  pose proof (last_Forall (λ r, r ≤ disk_size - 1) right head Hright') as Hlast2.
  simpl in Hlast1, Hlast2.
  split.
  - rewrite cscan_nonempty by done. fold left right. simpl.
    rewrite (path_cost_ascending right head), (path_cost_ascending left 0);
      [|apply sorted_StronglySorted|done|apply sorted_StronglySorted|done].
    destruct count_jump; lia.
  - pose proof (sorted_StronglySorted (filter (λ r, r < head) reqs)) as Hs.
    fold left in Hs. clear -Hs. generalize 0.
    induction Hs as [|x l Hl IH Hx]; intros d; [constructor|].
    rewrite last_cons_default. constructor.
    + clear IH. revert x Hx. induction l as [|y l IHl]; intros x Hx; [simpl; lia|].
      apply Forall_cons_1 in Hx as [Hxy Hx].
      apply StronglySorted_inv in Hl as [Hl Hy].
      rewrite last_cons_default. specialize (IHl Hl y Hy). lia.
    + done.
Qed.

Lemma cscan_total_in_range_witness :
  let left := sorted (filter (λ r, r < 53) [98; 183; 37; 122; 14]) in
  (cscan [98; 183; 37; 122; 14] 53 200 true).2 =
    (200 - 1 - 53) + (200 - 1) + List.last left 0 ∧
  Forall (λ r, r ≤ List.last left 0) left.
Proof.
  apply (cscan_total_in_range [98; 183; 37; 122; 14] 53 200 true).
  - discriminate.
  - lia.
  - repeat constructor; lia.
Defined.

Lemma sorted_id (l : list Z) : Sorted Z.le l → sorted l = l.
Proof.
  intros Hl. apply (Sorted_unique Z.le); [apply sorted_Sorted|done|].
  apply sorted_perm.
Qed.

Lemma StronglySorted_filter (P : Z → Prop) `{!∀ x, Decision (P x)} (l : list Z) :
  StronglySorted Z.le l → StronglySorted Z.le (filter P l).
Proof.
  induction 1 as [|x l Hl IH Hx]; [constructor|].
  rewrite filter_cons. case_decide; [|done].
  constructor; [done|].
  apply list.Forall_forall. intros y Hy.
  apply list_elem_of_filter in Hy as [_ Hy].
  rewrite list.Forall_forall in Hx. by apply Hx.
Qed.

(** In an ascending list the elements below [head] are a prefix. *)
Lemma filter_ascending_split (head : Z) (l : list Z) :
  StronglySorted Z.le l →
  filter (λ r, r < head) l = take (length (filter (λ r, r < head) l)) l ∧
  filter (λ r, r >= head) l = drop (length (filter (λ r, r < head) l)) l.
Proof.
  induction 1 as [|x l Hl [IH1 IH2] Hx]; [done|].
  rewrite !filter_cons. destruct (decide (x < head)) as [Hlt|Hge].
  - rewrite decide_False by lia. simpl. by rewrite <-IH1, <-IH2.
  - rewrite decide_True by lia.
    assert (filter (λ r, r < head) l = []) as Hnil.
    { destruct (filter (λ r, r < head) l) as [|y f] eqn:Hf; [done|].
      assert (y ∈ filter (λ r, r < head) l) as Hy by (rewrite Hf; left).
      apply list_elem_of_filter in Hy as [Hy1 Hy2].
      rewrite list.Forall_forall in Hx. apply Hx in Hy2. lia. }
    rewrite Hnil in *. simpl in *. by rewrite IH2.
Qed.

(** X4: on a request list already in ascending order (what
    [generate_data] produces when it samples without replacement),
    [cscan] visits a rotation of the list: it starts at the first
    request at or above the head, runs to the end of the list and
    continues from its beginning. *)
Theorem cscan_ascending_requests (reqs : list Z) (head disk_size : Z)
    (count_jump : bool) :
  Sorted Z.le reqs →
  let k := length (filter (λ r, r < head) reqs) in
  (cscan reqs head disk_size count_jump).1 = drop k reqs ++ take k reqs.
Proof.
  intros Hsorted k.
  apply (Sorted_StronglySorted Z.le) in Hsorted as Hstrong.
  destruct (filter_ascending_split head reqs Hstrong) as [Hleft Hright].
  fold k in Hleft, Hright. rewrite <-Hleft, <-Hright.
  destruct (decide (reqs = [])) as [->|Hne]; [done|].
  rewrite cscan_nonempty by done. simpl.
  rewrite !sorted_id; [done|..];
    by apply StronglySorted_Sorted, StronglySorted_filter.
Qed.

Lemma cscan_ascending_requests_witness :
  let k := length (filter (λ r, r < 53) [14; 37; 65; 67; 98]) in
  (cscan [14; 37; 65; 67; 98] 53 200 true).1
    = drop k [14; 37; 65; 67; 98] ++ take k [14; 37; 65; 67; 98].
Proof.
  apply (cscan_ascending_requests [14; 37; 65; 67; 98] 53 200 true).
  repeat constructor; lia.
Defined.

(** ** Bounds on the total of SSTF *)

Lemma path_cost_ge_dist (seq : list Z) : ∀ curr r,
  r ∈ seq → Z.abs (curr - r) ≤ path_cost curr seq.
Proof.
  induction seq as [|pos seq IH]; intros curr r Hr.
  - by apply elem_of_nil in Hr.
  - apply elem_of_cons in Hr as [->|Hr]; simpl.
    + pose proof (path_cost_nonneg seq pos). lia.
    + specialize (IH pos r Hr). lia.
Qed.

(** X5: the total seek [sstf] returns is at least the distance from the
    head to any request, in particular to the farthest one; it is never
    negative. *)
Theorem sstf_total_lower_bound (reqs : list Z) (head : Z) :
  ∃ seq total,
    sstf reqs head = Ok (seq, total) ∧
    0 ≤ total ∧
    ∀ r, r ∈ reqs → Z.abs (head - r) ≤ total.
Proof.
  destruct (sstf_returns reqs head) as (seq & total & Hsstf & Hperm & ->).
  exists seq, (path_cost head seq).
  split_and!; [done|apply path_cost_nonneg|].
  intros r Hr. apply path_cost_ge_dist. by rewrite Hperm.
Qed.

(** ** SSTF when every request is at or above the head *)

Lemma pending_elem visited : ∀ reqs r,
  r ∈ pending visited reqs →
  ∃ j, visited !! j = Some false ∧ reqs !! j = Some r.
Proof.
  induction visited as [|v visited IH]; intros reqs r Hr.
  - by apply elem_of_nil in Hr.
  - destruct reqs as [|r0 reqs]; [by apply elem_of_nil in Hr|].
    simpl in Hr. destruct v.
    + destruct (IH reqs r Hr) as (j & Hv & Hj). by exists (S j).
    + apply elem_of_cons in Hr as [->|Hr]; [by exists O|].
      destruct (IH reqs r Hr) as (j & Hv & Hj). by exists (S j).
Qed.

Lemma StronglySorted_snoc_le (l : list Z) (x : Z) :
  StronglySorted Z.le l → Forall (λ r, r ≤ x) l → StronglySorted Z.le (l ++ [x]).
Proof.
  induction 1 as [|y l Hl IH Hy]; intros Hx; simpl.
  - repeat constructor.
  - apply Forall_cons_1 in Hx as [Hyx Hx].
    constructor; [by apply IH|].
    apply Forall_app. split; [done|]. by constructor.
Qed.

(** With the pending requests all at or above the current position, an
    iteration selects the smallest of them. *)
Lemma sstf_iter_ascending reqs head k st :
  sstf_inv reqs head k st → (k < length reqs)%nat →
  Forall (λ r, cur st ≤ r) (pending (visited st) reqs) →
  ∃ st',
    sstf_iter reqs st = Ok st' ∧
    sstf_inv reqs head (S k) st' ∧
    Forall (λ r, cur st' ≤ r) (pending (visited st') reqs) ∧
    cur st ≤ cur st' ∧
    seq st' = seq st ++ [cur st'].
Proof.
  intros Hinv Hk Hpend.
  destruct (sstf_iter_inv reqs head k st Hinv Hk)
    as (idx & r & _ & Hfirst & Hr & Hit & Hinv').
  destruct Hfirst as (_ & Hv & _ & Hmin).
  pose proof (pending_insert _ _ _ _ Hv Hr) as Hperm.
  rewrite list.Forall_forall in Hpend.
  assert (cur st ≤ r) as Hcur.
  { apply Hpend. rewrite Hperm. left. }
  eexists. split_and!; [exact Hit|exact Hinv'| |done|done].
  simpl. apply list.Forall_forall. intros r' Hr'.
  assert (r' ∈ pending (visited st) reqs) as Hin.
  { rewrite Hperm. by right. }
  destruct (pending_elem _ _ _ Hin) as (j & Hvj & Hj).
  destruct (Hmin j r') as [Hle _]; [by eapply lookup_lt_Some|done|done|].
  apply Hpend in Hin. lia.
Qed.

Lemma sstf_loop_ascending reqs head m : ∀ k st,
  sstf_inv reqs head k st → (k + m ≤ length reqs)%nat →
  Forall (λ r, cur st ≤ r) (pending (visited st) reqs) →
  StronglySorted Z.le (seq st) →
  Forall (λ r, r ≤ cur st) (seq st) →
  ∃ st',
    sstf_loop m reqs st = Ok st' ∧
    sstf_inv reqs head (k + m) st' ∧
    StronglySorted Z.le (seq st').
Proof.
  induction m as [|m IH]; intros k st Hinv Hle Hpend Hsorted Hseq.
  - exists st. by rewrite Nat.add_0_r.
  - destruct (sstf_iter_ascending reqs head k st Hinv) as
      (st1 & Hit & Hinv1 & Hpend1 & Hcur & Hseq1); [lia|done|].
    destruct (IH (S k) st1) as (st' & Hloop & Hinv' & Hsorted'); [done|lia|done|..].
    + rewrite Hseq1. apply StronglySorted_snoc_le; [done|].
      eapply list.Forall_impl; [exact Hseq|]. simpl. lia.
    + rewrite Hseq1. apply Forall_app. split.
      * eapply list.Forall_impl; [exact Hseq|]. simpl. lia.
      * by constructor.
    + exists st'. simpl. rewrite Hit. simpl.
      replace (k + S m)%nat with (S k + m)%nat by lia. done.
Qed.

Lemma filter_ge_all (head : Z) (l : list Z) :
  Forall (λ r, head ≤ r) l →
  filter (λ r, r >= head) l = l ∧ filter (λ r, r < head) l = [].
Proof.
  induction 1 as [|x l Hx Hl [IH1 IH2]]; [done|].
  rewrite !filter_cons, decide_True, decide_False by lia.
  by rewrite IH1, IH2.
Qed.

Lemma sstf_above_head (reqs : list Z) (head : Z) :
  Forall (λ r, head ≤ r) reqs →
  sstf reqs head = Ok (sorted reqs, List.last (sorted reqs) head - head).
Proof.
  intros Hreqs.
  destruct (sstf_loop_ascending reqs head (length reqs) 0 (sstf_init reqs head))
    as (st & Hloop & (Hlen & Hperm & Hk & Htotal & Hcur) & Hsorted).
  - apply sstf_init_inv.
  - lia.
  - simpl. by rewrite pending_replicate.
  - constructor.
  - constructor.
  - assert (pending (visited st) reqs = []) as Hnil.
    { apply Permutation_length in Hperm. rewrite length_app in Hperm.
      apply nil_length_inv. simpl in Hk. lia. }
    rewrite Hnil, (right_id_L [] (++)) in Hperm.
    assert (seq st = sorted reqs) as Hseq.
    { apply (Sorted_unique Z.le);
        [by apply StronglySorted_Sorted|apply sorted_Sorted|].
      by rewrite sorted_perm. }
    assert (total st = List.last (sorted reqs) head - head) as Htot.
    { rewrite Htotal, Hseq. apply path_cost_ascending;
        [apply sorted_StronglySorted|by apply Forall_sorted]. }
    unfold sstf. destruct reqs as [|r reqs].
    + simpl in Hloop. simplify_eq. simpl in *. by rewrite <-Hseq, <-Htot.
    + rewrite Hloop. simpl. by rewrite Hseq, Htot.
Qed.

(** X6: when no request lies below the head, [sstf] visits the requests
    in ascending order, for a total equal to the distance from the head
    to the largest request, and [cscan] visits them in the same order. *)
Theorem sstf_requests_above_head (reqs : list Z) (head disk_size : Z)
    (count_jump : bool) :
  Forall (λ r, head ≤ r) reqs →
  sstf reqs head = Ok (sorted reqs, List.last (sorted reqs) head - head) ∧
  (cscan reqs head disk_size count_jump).1 = sorted reqs.
Proof.
  intros Hreqs. split; [by apply sstf_above_head|].
  destruct (filter_ge_all head reqs Hreqs) as [Hright Hleft].
  destruct (decide (reqs = [])) as [->|Hne]; [done|].
  rewrite cscan_nonempty by done. simpl.
  rewrite Hright, Hleft. apply (right_id_L [] (++)).
Qed.

Lemma sstf_requests_above_head_witness :
  sstf [98; 183; 65; 122] 53
    = Ok (sorted [98; 183; 65; 122],
          List.last (sorted [98; 183; 65; 122]) 53 - 53) ∧
  (cscan [98; 183; 65; 122] 53 200 true).1 = sorted [98; 183; 65; 122].
Proof.
  apply (sstf_requests_above_head [98; 183; 65; 122] 53 200 true).
  repeat constructor; lia.
Defined.

(** ** SSTF depends on distances only *)

Section isometry.
Variable f : Z → Z.
Hypothesis f_dist : ∀ a b, Z.abs (f a - f b) = Z.abs (a - b).

Lemma scan_isometry cur visited rs : ∀ i n,
  scan (f cur) visited i (f <$> rs) n = scan cur visited i rs n.
Proof using f_dist.
  induction rs as [|r rs IH]; intros i n; [done|].
  cbn [scan fmap list_fmap]. rewrite f_dist.
  destruct (visited !! i) as [[]|]; [apply IH| |done].
  destruct (lt_min_dist _ n); apply IH.
Qed.

Lemma sstf_iter_isometry reqs st :
  sstf_iter (f <$> reqs) (move_state f st)
    = move_state f <$> sstf_iter reqs st.
Proof using f_dist.
  unfold sstf_iter. cbn [cur visited move_state seq total].
  rewrite scan_isometry.
  destruct (scan _ _ _ _ _) as [[[idx d]|]|e]; simpl; try done.
  case_bool_decide; [|done].
  rewrite list_lookup_fmap.
  destruct (reqs !! idx) as [r|]; simpl; [|done].
  unfold move_state. simpl. by rewrite fmap_app.
Qed.

Lemma sstf_loop_isometry reqs k : ∀ st,
  sstf_loop k (f <$> reqs) (move_state f st)
    = move_state f <$> sstf_loop k reqs st.
Proof using f_dist.
  induction k as [|k IH]; intros st; [done|].
  cbn [sstf_loop]. rewrite sstf_iter_isometry.
  destruct (sstf_iter reqs st) as [st1|e]; simpl; [apply IH|done].
Qed.
End isometry.

Lemma sstf_nonempty reqs head :
  reqs ≠ [] →
  sstf reqs head =
    st ← sstf_loop (length reqs) reqs (sstf_init reqs head);
    Ok (seq st, total st).
Proof. by destruct reqs. Qed.

Lemma sstf_moved (f : Z → Z) (reqs : list Z) (head : Z) :
  (∀ a b, Z.abs (f a - f b) = Z.abs (a - b)) →
  sstf (f <$> reqs) (f head)
    = (λ plan : list Z * Z, (f <$> plan.1, plan.2)) <$> sstf reqs head.
Proof.
  intros Hf. destruct (decide (reqs = [])) as [->|Hne]; [done|].
  rewrite !sstf_nonempty by (by destruct reqs).
  assert (sstf_init (f <$> reqs) (f head) = move_state f (sstf_init reqs head))
    as ->.
  { unfold sstf_init, move_state. simpl. by rewrite length_fmap. }
  rewrite length_fmap, (sstf_loop_isometry f Hf).
  by destruct (sstf_loop _ _ _) as [st|e].
Qed.

(** X7: [sstf] depends on the cylinders through their distances only.
    Moving the head and every request by a map that keeps distances (a
    shift of all cylinders, or the mirror image of the disk) moves the
    visit order in the same way and leaves the total unchanged. *)
Theorem sstf_isometry (f : Z → Z) (reqs : list Z) (head : Z) :
  (∀ a b, Z.abs (f a - f b) = Z.abs (a - b)) →
  sstf (f <$> reqs) (f head)
    = (λ plan : list Z * Z, (f <$> plan.1, plan.2)) <$> sstf reqs head.
Proof. apply sstf_moved. Qed.

(** The textbook requests mirrored on a disk of 200 cylinders. *)
Lemma sstf_isometry_witness :
  sstf ((λ c, 199 - c) <$> [98; 183; 37; 122; 14; 124; 65; 67]) (199 - 53)
    = (λ plan : list Z * Z, ((λ c, 199 - c) <$> plan.1, plan.2))
        <$> sstf [98; 183; 37; 122; 14; 124; 65; 67] 53.
Proof.
  apply (sstf_isometry (λ c, 199 - c) [98; 183; 37; 122; 14; 124; 65; 67] 53).
  intros a b. lia.
Defined.

(** ** When the table of [simulate] completes *)

Lemma fill_table_distances ms seq : ∀ i cumulative curr rows,
  (Forall (λ d, d < float_int_limit) (step_distances curr seq) →
   ∃ rows',
     fill_table seq i ms cumulative curr rows
       = Ok (cumulative + path_cost curr seq, List.last seq curr,
             rows ++ rows') ∧
     length rows' = length seq) ∧
  (¬ Forall (λ d, d < float_int_limit) (step_distances curr seq) →
   fill_table seq i ms cumulative curr rows = Raise OverflowError).
Proof.
  induction seq as [|pos seq IH]; intros i cumulative curr rows.
  - split.
    + intros _. exists []. simpl. by rewrite (right_id_L [] (++)), Z.add_0_r.
    + intros Hnot. destruct Hnot. constructor.
  - cbn [fill_table step_distances path_cost]. unfold int_mul_float, float_of_int.
    rewrite last_cons_default, (Z.abs_eq (Z.abs _)) by lia.
    case_bool_decide as Hd; simpl.
    + match goal with |- context [fill_table seq ?i' ms ?c' pos ?r'] =>
        destruct (IH i' c' pos r') as [IHok IHraise] end.
      split.
      * intros Hall. apply Forall_cons_1 in Hall as [_ Hall].
        destruct (IHok Hall) as (rows' & -> & Hlen).
        eexists (_ :: rows'). split; [|simpl; by rewrite Hlen].
        by rewrite <-(assoc_L (++)), Z.add_assoc.
      * intros Hnot. apply IHraise. intros Hall. apply Hnot. by constructor.
    + split; [|done].
      intros Hall. apply Forall_cons_1 in Hall as [Hlt _]. done.
Qed.

(** X8: the loop of [simulate] that fills the table completes exactly
    when every move of the replay is shorter than the limit of the
    integer to float conversion; it then returns one row per entry and
    the sum of the distances.  Otherwise it raises [OverflowError], the
    only exception it can raise. *)
Theorem simulate_table_completes (seq : list Z) (head : Z) (ms_per_cyl : float) :
  (Forall (λ d, d < float_int_limit) (step_distances head seq) →
   ∃ rows,
     simulate_table seq head ms_per_cyl
       = Ok (path_cost head seq, List.last seq head, rows) ∧
     length rows = length seq) ∧
  (¬ Forall (λ d, d < float_int_limit) (step_distances head seq) →
   simulate_table seq head ms_per_cyl = Raise OverflowError).
Proof.
  unfold simulate_table.
  destruct (fill_table_distances ms_per_cyl seq 1 0 head []) as [Hok Hraise].
  split; [|done].
  intros Hall. destruct (Hok Hall) as (rows & Hfill & Hlen). by exists rows.
Qed.

(** ** The total of C-SCAN and the table *)

Lemma path_cost_app (l1 l2 : list Z) : ∀ curr,
  path_cost curr (l1 ++ l2)
    = path_cost curr l1 + path_cost (List.last l1 curr) l2.
Proof.
  induction l1 as [|x l1 IH]; intros curr; [done|].
  cbn [app path_cost]. rewrite IH, last_cons_default. lia.
Qed.

(** X9: for a non-empty request list and a head within a disk whose size
    an integer converts to a float, the table filled from the visit
    order of [cscan] completes, and the total of [cscan] is the
    cumulative seek of the table plus the move from the last cylinder
    served on the way up, [top], to the last cylinder of the disk, plus
    the jump when it is counted, and, when a request lies below the
    head, plus the distance of the first such request from cylinder 0
    minus its distance from [top], which is the move the table counts
    instead. *)
Theorem cscan_total_vs_table (reqs : list Z) (head disk_size : Z)
    (count_jump : bool) (ms_per_cyl : float) :
  reqs ≠ [] →
  disk_size ≤ float_int_limit →
  0 ≤ head < disk_size →
  Forall (λ r, 0 ≤ r < disk_size) reqs →
  let left := sorted (filter (λ r, r < head) reqs) in
  let right := sorted (filter (λ r, r >= head) reqs) in
  let top := List.last right head in
  ∃ cumulative curr rows,
    simulate_table (cscan reqs head disk_size count_jump).1 head ms_per_cyl
      = Ok (cumulative, curr, rows) ∧
    (cscan reqs head disk_size count_jump).2 =
      cumulative + (disk_size - 1 - top)
      + (if count_jump then disk_size - 1 else 0)
      + match left with
        | [] => 0
        | first :: _ => first - (top - first)
        end.
Proof.
  intros Hne Hlim Hhead Hreqs left right top.
  assert (Forall (λ r, 0 ≤ r < disk_size)
            (cscan reqs head disk_size count_jump).1) as Hvisit.
  { by rewrite cscan_perm. }
  destruct (fill_table_spec disk_size ms_per_cyl _ 1 0 head [] Hlim Hhead Hvisit)
    as (rows & Hfill & _).
  eexists _, _, rows. split; [exact Hfill|].
  rewrite cscan_nonempty by done. fold left right top. simpl.
  rewrite path_cost_app. fold top.
  assert (head ≤ top < disk_size) as Htop.
  { apply (last_Forall (λ r, head ≤ r < disk_size)); [|lia].
    apply Forall_sorted, list.Forall_forall. intros r Hr.
    apply list_elem_of_filter in Hr as [? Hr].
    rewrite list.Forall_forall in Hreqs. apply Hreqs in Hr. lia. }
  assert (Forall (λ r, 0 ≤ r < head) left) as Hleft.
  { apply Forall_sorted, list.Forall_forall. intros r Hr.
    apply list_elem_of_filter in Hr as [? Hr].
    rewrite list.Forall_forall in Hreqs. apply Hreqs in Hr. lia. }
  destruct left as [|first left'].
  - simpl. destruct count_jump; lia.
  - apply Forall_cons_1 in Hleft as [Hfirst _]. cbn [path_cost].
    destruct count_jump; lia.
Qed.

Lemma cscan_total_vs_table_witness :
  let left := sorted (filter (λ r, r < 100) [190; 10]) in
  let right := sorted (filter (λ r, r >= 100) [190; 10]) in
  let top := List.last right 100 in
  ∃ cumulative curr rows,
    simulate_table (cscan [190; 10] 100 200 false).1 100
        (S754_finite false 1 (-1))
      = Ok (cumulative, curr, rows) ∧
    (cscan [190; 10] 100 200 false).2 =
      cumulative + (200 - 1 - top) + 0
      + match left with
        | [] => 0
        | first :: _ => first - (top - first)
        end.
Proof.
  apply (cscan_total_vs_table [190; 10] 100 200 false (S754_finite false 1 (-1))).
  - discriminate.
  - by vm_compute.
  - lia.
  - repeat constructor; lia.
Defined.

(** ** The animation *)

Lemma int_mul_float_small (c : Z) (scale : float) :
  Z.abs c < float_int_limit → int_mul_float c scale = Ok (canvas_x scale c).
Proof.
  intros Hc. unfold int_mul_float. by rewrite float_of_int_small.
Qed.

Lemma run_animation_from (height : Z) (rest : list Z) :
  ∀ (a : DiskSchedulerApp) (fuel : nat),
  drop (animation_index a) (seek_sequence a) = rest →
  (animation_index a ≤ length (seek_sequence a))%nat →
  Z.abs (head_position a) < float_int_limit →
  Forall (λ c, Z.abs c < float_int_limit) rest →
  run_animation fuel height a =
    if bool_decide (fuel ≤ length rest)%nat then Ok None
    else
      Ok (Some
        {| seek_sequence := seek_sequence a;
           animation_index := length (seek_sequence a);
           head_position := List.last rest (head_position a);
           scale_px := scale_px a;
           gantt_canvas := gantt_canvas a
             ++ trail (scale_px a) (height `div` 2) (head_position a) rest
             ++ final_marker (scale_px a) (height `div` 2)
                  (List.last rest (head_position a)) |}).
Proof.
  induction rest as [|next rest IH]; intros a fuel Hdrop Hidx Hhead Hrest.
  - destruct fuel as [|fuel]; [done|].
    rewrite bool_decide_eq_false_2 by (simpl; lia).
    assert (animation_index a = length (seek_sequence a)) as Hlen.
    { apply (f_equal length) in Hdrop. rewrite length_drop in Hdrop.
      simpl in Hdrop. lia. }
    cbn [run_animation]. unfold animate_seek_step, draw_head_marker.
    rewrite bool_decide_eq_true_2 by lia.
    rewrite int_mul_float_small by done. simpl. by rewrite Hlen.
  - destruct fuel as [|fuel]; [done|].
    apply Forall_cons_1 in Hrest as [Hnext Hrest].
    assert (seek_sequence a !! animation_index a = Some next) as Hlookup.
    { rewrite <-(Nat.add_0_r (animation_index a)), <-lookup_drop, Hdrop. done. }
    apply lookup_lt_Some in Hlookup as Hlt.
    cbn [run_animation]. unfold animate_seek_step.
    rewrite bool_decide_eq_false_2 by lia.
    rewrite Hlookup, !int_mul_float_small by done.
    cbn [mbind result_bind].
    rewrite IH; cbn [seek_sequence animation_index head_position scale_px
                     gantt_canvas]; [|..|done|done|done].
    + rewrite last_cons_default. cbn [length trail].
      rewrite <-!(assoc_L (++)). cbn [app].
      destruct (decide (fuel ≤ length rest)%nat).
      * by rewrite !bool_decide_eq_true_2 by lia.
      * by rewrite !bool_decide_eq_false_2 by lia.
    + replace (S (animation_index a)) with (animation_index a + 1)%nat by lia.
      by rewrite <-drop_drop, Hdrop.
Qed.

(** X10: started as [simulate] starts it, at index 0, on cylinders an
    integer to float conversion accepts, the animation raises nothing
    and stops at callback number [len(seek_sequence) + 1], not before.
    It has then drawn, for each entry of the sequence in order, a line
    from the previous position to the entry and an arrival dot, and the
    final head marker at the last entry, where [head_position] ends;
    [animation_index] ends at the length of the sequence. *)
Theorem animation_runs_to_completion (height : Z) (a : DiskSchedulerApp)
    (fuel : nat) :
  animation_index a = 0%nat →
  Z.abs (head_position a) < float_int_limit →
  Forall (λ c, Z.abs c < float_int_limit) (seek_sequence a) →
  run_animation fuel height a =
    if bool_decide (fuel ≤ length (seek_sequence a))%nat then Ok None
    else
      Ok (Some
        {| seek_sequence := seek_sequence a;
           animation_index := length (seek_sequence a);
           head_position := List.last (seek_sequence a) (head_position a);
           scale_px := scale_px a;
           gantt_canvas := gantt_canvas a
             ++ trail (scale_px a) (height `div` 2) (head_position a)
                  (seek_sequence a)
             ++ final_marker (scale_px a) (height `div` 2)
                  (List.last (seek_sequence a) (head_position a)) |}).
Proof.
  intros Hidx Hhead Hseq.
  apply run_animation_from; [by rewrite Hidx|lia|done|done].
Qed.

Lemma animation_runs_to_completion_witness :
  let a := {| seek_sequence := [65; 67; 37];
              animation_index := 0;
              head_position := 53;
              scale_px := S754_finite false 1 2;
              gantt_canvas := [] |} in
  run_animation 4 130 a =
    if bool_decide (4 ≤ length (seek_sequence a))%nat then Ok None
    else
      Ok (Some
        {| seek_sequence := seek_sequence a;
           animation_index := length (seek_sequence a);
           head_position := List.last (seek_sequence a) (head_position a);
           scale_px := scale_px a;
           gantt_canvas := gantt_canvas a
             ++ trail (scale_px a) (130 `div` 2) (head_position a)
                  (seek_sequence a)
             ++ final_marker (scale_px a) (130 `div` 2)
                  (List.last (seek_sequence a) (head_position a)) |}).
Proof.
  intros a. apply (animation_runs_to_completion 130 a 4).
  - reflexivity.
  - by vm_compute.
  - repeat constructor; by vm_compute.
Defined.

(** ** C-SCAN and the order of the requests *)

(** X11: the plan of [cscan] does not depend on the order in which the
    requests are given: two request lists with the same cylinders, each
    the same number of times, get the same visit order and total. *)
Theorem cscan_request_order (reqs reqs' : list Z) (head disk_size : Z)
    (count_jump : bool) :
  reqs ≡ₚ reqs' →
  cscan reqs head disk_size count_jump = cscan reqs' head disk_size count_jump.
Proof.
  intros Hperm.
  destruct (decide (reqs = [])) as [->|Hne].
  { apply Permutation_nil_l in Hperm. by subst. }
  assert (reqs' ≠ []) as Hne'.
  { intros ->. by apply Permutation_nil_r in Hperm. }
  rewrite !cscan_nonempty by done. simpl.
  rewrite (sorted_unique (filter (λ r, r >= head) reqs)
                         (filter (λ r, r >= head) reqs')) by by rewrite Hperm.
  rewrite (sorted_unique (filter (λ r, r < head) reqs)
                         (filter (λ r, r < head) reqs')) by by rewrite Hperm.
  done.
Qed.

Lemma cscan_request_order_witness :
  cscan [98; 183; 37; 122] 53 200 true = cscan [37; 122; 183; 98] 53 200 true.
Proof.
  apply (cscan_request_order [98; 183; 37; 122] [37; 122; 183; 98] 53 200 true).
  apply (bool_decide_unpack _). by vm_compute.
Defined.

(** ** The plan of SSTF is greedy, and scheduling it again returns it *)

Lemma nearest_first_snoc (seq : list Z) : ∀ curr r rest rest',
  nearest_first curr seq rest →
  rest ≡ₚ r :: rest' →
  Forall (λ y, Z.abs (List.last seq curr - r) ≤ Z.abs (List.last seq curr - y))
    rest' →
  nearest_first curr (seq ++ [r]) rest'.
Proof.
  induction seq as [|x seq IH]; intros curr r rest rest' Hseq Hperm Hr.
  - simpl in *. done.
  - destruct Hseq as [Hx Hseq]. cbn [app nearest_first]. split.
    + rewrite <-(assoc_L (++)). simpl. by rewrite <-Hperm.
    + apply (IH x r rest rest'); [done|done|].
      by rewrite last_cons_default in Hr.
Qed.

Lemma sstf_loop_nearest_first reqs head m : ∀ k st,
  sstf_inv reqs head k st → (k + m ≤ length reqs)%nat →
  nearest_first head (seq st) (pending (visited st) reqs) →
  ∃ st',
    sstf_loop m reqs st = Ok st' ∧
    sstf_inv reqs head (k + m) st' ∧
    nearest_first head (seq st') (pending (visited st') reqs).
Proof.
  induction m as [|m IH]; intros k st Hinv Hle Hnf.
  - exists st. by rewrite Nat.add_0_r.
  - destruct (sstf_iter_inv reqs head k st Hinv)
      as (idx & r & _ & Hfirst & Hr & Hit & Hinv'); [lia|].
    destruct Hfirst as (_ & Hv & _ & Hmin).
    pose proof (pending_insert _ _ _ _ Hv Hr) as Hperm.
    destruct (IH (S k) _ Hinv') as (st' & Hloop & Hinv'' & Hnf'); [lia| |].
    + simpl. eapply nearest_first_snoc; [exact Hnf|exact Hperm|].
      destruct Hinv as (_ & _ & _ & _ & <-).
      apply list.Forall_forall. intros y Hy.
      assert (y ∈ pending (visited st) reqs) as Hin by (rewrite Hperm; by right).
      destruct (pending_elem _ _ _ Hin) as (j & Hvj & Hj).
      by destruct (Hmin j y); [by eapply lookup_lt_Some|..].
    + exists st'. simpl. rewrite Hit. simpl.
      replace (k + S m)%nat with (S k + m)%nat by lia. done.
Qed.

Lemma sstf_returns_nearest_first (reqs : list Z) (head : Z) :
  ∃ seq total,
    sstf reqs head = Ok (seq, total) ∧
    total = path_cost head seq ∧
    nearest_first head seq [].
Proof.
  destruct (sstf_loop_nearest_first reqs head (length reqs) 0 (sstf_init reqs head))
    as (st & Hloop & (Hlen & Hperm & Hk & Htotal & _) & Hnf);
    [apply sstf_init_inv|lia|done|].
  assert (pending (visited st) reqs = []) as Hnil.
  { apply Permutation_length in Hperm. rewrite length_app in Hperm.
    apply nil_length_inv. simpl in Hk. lia. }
  rewrite Hnil in Hnf.
  exists (seq st), (total st). split_and!; [|done|done].
  unfold sstf. destruct reqs as [|r reqs].
  - simpl in Hloop. by simplify_eq.
  - by rewrite Hloop.
Qed.

(** X12: in the visit order [sstf] returns, every cylinder is at minimal
    distance from the position before it (the head for the first one)
    among the cylinders visited after it. *)
Theorem sstf_plan_nearest_first (reqs : list Z) (head : Z) :
  ∃ seq total,
    sstf reqs head = Ok (seq, total) ∧
    nearest_first head seq [].
Proof.
  destruct (sstf_returns_nearest_first reqs head)
    as (seq & total & Hsstf & _ & Hnf).
  by exists seq, total.
Qed.

Lemma pending_plan_state (k : nat) : ∀ plan : list Z,
  (k ≤ length plan)%nat →
  pending (replicate k true ++ replicate (length plan - k) false) plan
    = drop k plan.
Proof.
  induction k as [|k IH]; intros plan Hk.
  - rewrite Nat.sub_0_r. apply pending_replicate.
  - destruct plan as [|x plan]; [simpl in Hk; lia|].
    simpl. apply IH. simpl in Hk. lia.
Qed.

Lemma lookup_plan_state_false (k m idx : nat) :
  (replicate k true ++ replicate m false) !! idx = Some false → (k ≤ idx)%nat.
Proof.
  intros Hidx. destruct (decide (idx < k)%nat) as [Hlt|]; [|lia].
  rewrite lookup_app_l in Hidx by (by rewrite length_replicate).
  apply lookup_replicate in Hidx as [? _]. done.
Qed.

Lemma insert_plan_state (k m : nat) :
  <[k:=true]> (replicate k true ++ replicate (S m) false)
    = replicate (S k) true ++ replicate m false.
Proof.
  induction k as [|k IH]; [done|].
  change (true :: <[k:=true]> (replicate k true ++ replicate (S m) false)
            = true :: (replicate (S k) true ++ replicate m false)).
  by rewrite IH.
Qed.

Lemma nearest_first_lookup (plan : list Z) : ∀ curr k j x y,
  nearest_first curr plan [] →
  plan !! k = Some x → plan !! j = Some y → (k < j)%nat →
  Z.abs (List.last (take k plan) curr - x)
    ≤ Z.abs (List.last (take k plan) curr - y).
Proof.
  induction plan as [|p plan IH]; intros curr k j x y Hnf Hk Hj Hlt; [done|].
  destruct Hnf as [Hp Hnf]. destruct j as [|j]; [lia|]. simpl in Hj.
  destruct k as [|k]; simpl in Hk.
  - simplify_eq. simpl. rewrite (right_id_L [] (++)) in Hp.
    rewrite list.Forall_forall in Hp. apply Hp.
    by eapply list_elem_of_lookup_2.
  - cbn [take]. rewrite last_cons_default.
    apply (IH p k j); [done|done|done|lia].
Qed.

(** Scheduling a greedy visit order from the same head: after [k]
    iterations the first [k] entries are visited, in order. *)
Lemma sstf_loop_plan (plan : list Z) (head : Z) (m : nat) : ∀ k,
  nearest_first head plan [] →
  (k + m ≤ length plan)%nat →
  sstf_loop m plan (plan_state plan head k) = Ok (plan_state plan head (k + m)).
Proof.
  induction m as [|m IH]; intros k Hnf Hle.
  - by rewrite Nat.add_0_r.
  - assert (sstf_inv plan head k (plan_state plan head k)) as Hinv.
    { unfold sstf_inv, plan_state. simpl. split_and!; [..|done|done].
      - rewrite length_app, !length_replicate. lia.
      - rewrite pending_plan_state by lia. by rewrite take_drop.
      - rewrite length_take. lia. }
    destruct (sstf_iter_inv plan head k _ Hinv)
      as (idx & r & _ & Hfirst & Hr & Hit & _); [lia|].
    destruct Hfirst as (Hidx & Hv & _ & Hmin).
    cbn [visited cur plan_state] in Hv, Hmin, Hit.
    apply lookup_plan_state_false in Hv as Hge.
    destruct (lookup_lt_is_Some_2 plan k) as [x Hx]; [lia|].
    assert (idx = k) as ->.
    { destruct (decide (k < idx)%nat) as [Hlt|]; [|lia]. exfalso.
      destruct (Hmin k x) as [_ Hstrict]; [lia| |done|].
      - rewrite lookup_app_r by (by rewrite length_replicate).
        rewrite length_replicate, Nat.sub_diag.
        apply lookup_replicate. split; [done|lia].
      - specialize (Hstrict Hlt).
        pose proof (nearest_first_lookup plan head k idx x r Hnf Hx Hr Hlt).
        lia. }
    assert (r = x) as -> by congruence.
    cbn [sstf_loop]. rewrite Hit. cbn [mbind result_bind].
    replace (k + S m)%nat with (S k + m)%nat by lia.
    rewrite <-IH by (done || lia). f_equal.
    unfold plan_state. cbn [seq total].
    rewrite (take_S_r _ _ _ Hx), path_cost_snoc, last_last. f_equal.
    replace (length plan - k)%nat with (S (length plan - S k)) by lia.
    apply insert_plan_state.
Qed.

(** X13: scheduling the visit order [sstf] returns once more, from the
    same head, returns the same visit order and the same total. *)
Theorem sstf_plan_rescheduled (reqs : list Z) (head : Z) :
  ∃ seq total,
    sstf reqs head = Ok (seq, total) ∧
    sstf seq head = Ok (seq, total).
Proof.
  destruct (sstf_returns_nearest_first reqs head)
    as (seq & total & Hsstf & -> & Hnf).
  exists seq, (path_cost head seq). split; [done|].
  destruct (decide (seq = [])) as [->|Hne]; [done|].
  rewrite sstf_nonempty by done.
  assert (sstf_init seq head = plan_state seq head 0) as ->.
  { unfold sstf_init, plan_state. simpl. by rewrite Nat.sub_0_r. }
  rewrite (sstf_loop_plan seq head (length seq) 0 Hnf) by lia.
  unfold plan_state. simpl. by rewrite firstn_all.
Qed.

(** ** SSTF when every request is at or below the head *)

Lemma last_fmap_opp (l : list Z) : ∀ d,
  List.last (Z.opp <$> l) (- d) = - List.last l d.
Proof.
  induction l as [|x l IH]; intros d; [done|].
  cbn [fmap list_fmap]. change (list_fmap Z Z Z.opp l) with (Z.opp <$> l).
  by rewrite !last_cons_default, IH.
Qed.

Lemma last_reverse_hd (l : list Z) (d : Z) :
  List.last (reverse l) d = List.hd d l.
Proof.
  destruct l as [|x l]; [done|]. rewrite reverse_cons. apply last_last.
Qed.

Lemma StronglySorted_opp_reverse (l : list Z) :
  StronglySorted Z.le l → StronglySorted Z.le (Z.opp <$> reverse l).
Proof.
  induction 1 as [|x l Hl IH Hx]; [constructor|].
  rewrite reverse_cons, fmap_app. apply StronglySorted_snoc_le; [done|].
  apply Forall_fmap, Forall_reverse.
  eapply list.Forall_impl; [exact Hx|]. simpl. lia.
Qed.

Lemma sorted_opp (l : list Z) :
  sorted (Z.opp <$> l) = Z.opp <$> reverse (sorted l).
Proof.
  apply (Sorted_unique Z.le); [apply sorted_Sorted| |].
  - apply StronglySorted_Sorted, StronglySorted_opp_reverse,
      sorted_StronglySorted.
  - by rewrite sorted_perm, reverse_Permutation, sorted_perm.
Qed.

Lemma fmap_opp_opp (l : list Z) : Z.opp <$> (Z.opp <$> l) = l.
Proof.
  rewrite <-list_fmap_compose. rewrite <-(list_fmap_id l) at 2.
  apply list_fmap_ext. intros _ x _. simpl. lia.
Qed.

(** X14: when no request lies above the head, [sstf] visits the requests
    in descending order, for a total equal to the distance from the head
    to the smallest request. *)
Theorem sstf_requests_below_head (reqs : list Z) (head : Z) :
  Forall (λ r, r ≤ head) reqs →
  sstf reqs head
    = Ok (reverse (sorted reqs), head - List.hd head (sorted reqs)).
Proof.
  intros Hreqs.
  assert (Forall (λ r, - head ≤ r) (Z.opp <$> reqs)) as Hopp.
  { apply Forall_fmap. eapply list.Forall_impl; [exact Hreqs|]. simpl. lia. }
  pose proof (sstf_above_head _ _ Hopp) as Habove.
  rewrite (sstf_moved Z.opp) in Habove by (intros; lia).
  destruct (sstf reqs head) as [[seq total]|e]; simpl in Habove; [|done].
  injection Habove as Hseq Htotal.
  rewrite sorted_opp in Hseq, Htotal.
  rewrite last_fmap_opp, last_reverse_hd in Htotal.
  apply (f_equal (fmap Z.opp)) in Hseq. rewrite !fmap_opp_opp in Hseq.
  rewrite Hseq. do 2 f_equal. lia.
Qed.

Lemma sstf_requests_below_head_witness :
  sstf [37; 14; 50] 53
    = Ok (reverse (sorted [37; 14; 50]), 53 - List.hd 53 (sorted [37; 14; 50])).
Proof.
  apply (sstf_requests_below_head [37; 14; 50] 53).
  repeat constructor; lia.
Defined.

(** ** Replaying an SSTF plan *)

Lemma fill_table_last_cum ms seq : ∀ i cumulative curr rows c p out,
  fill_table seq i ms cumulative curr rows = Ok (c, p, out) →
  (seq = [] ∧ out = rows ∧ c = cumulative) ∨
  (∃ row, list.last out = Some row ∧ lbl_cum row = c).
Proof.
  induction seq as [|pos seq IH]; intros i cumulative curr rows c p out Hfill.
  - left. simpl in Hfill. by simplify_eq.
  - right. cbn [fill_table] in Hfill.
    destruct (int_mul_float _ ms) as [latency|e]; simpl in Hfill; [|done].
    apply IH in Hfill as [(-> & -> & ->)|Hlast]; [|done].
    eexists. split; [apply last_snoc|done].
Qed.

(** C10, as stated, fails: for the single request 2^1024 and the head at
    0, [sstf] returns a plan with total 2^1024, and the loop of
    [simulate] raises [OverflowError] on its first row instead of
    reaching a final cumulative seek. *)
Lemma sstf_replay_overflow :
  sstf [2 ^ 1024] 0 = Ok ([2 ^ 1024], 2 ^ 1024) ∧
  simulate_table [2 ^ 1024] 0 (S754_finite false 1 (-1))
    = Raise OverflowError.
Proof. by vm_compute. Qed.

(** C10, amended: for every request list and head, [sstf] returns a plan
    whose total is the sum of the absolute differences along its visit
    order from the head.  When every move of that path is shorter than
    the limit of the integer to float conversion, the loop of [simulate]
    run on the visit order from the same head completes with a final
    cumulative seek equal to that total, which its last row shows;
    otherwise the loop raises [OverflowError]. *)
Theorem sstf_replay_total (reqs : list Z) (head : Z) (ms_per_cyl : float) :
  ∃ seq total,
    sstf reqs head = Ok (seq, total) ∧
    total = path_cost head seq ∧
    (Forall (λ d, d < float_int_limit) (step_distances head seq) →
     ∃ curr rows,
       simulate_table seq head ms_per_cyl = Ok (total, curr, rows) ∧
       length rows = length seq ∧
       ∀ row, list.last rows = Some row → lbl_cum row = total) ∧
    (¬ Forall (λ d, d < float_int_limit) (step_distances head seq) →
     simulate_table seq head ms_per_cyl = Raise OverflowError).
Proof.
  destruct (sstf_returns reqs head) as (seq & total & Hsstf & _ & ->).
  exists seq, (path_cost head seq). split_and!; [done|done| |].
  - intros Hall. unfold simulate_table.
    destruct (fill_table_distances ms_per_cyl seq 1 0 head []) as [Hok _].
    destruct (Hok Hall) as (rows & Hfill & Hlen).
    exists (List.last seq head), rows. split_and!; [done|done|].
    intros row Hrow.
    destruct (fill_table_last_cum _ _ _ _ _ _ _ _ _ Hfill)
      as [(_ & Hrows & _)|(row' & Hrow' & Hcum)].
    + simpl in Hrows. by rewrite Hrows in Hrow.
    + simpl in Hrow'. rewrite Hrow in Hrow'. by simplify_eq.
  - intros Hnot. unfold simulate_table.
    by apply (fill_table_distances ms_per_cyl seq 1 0 head []).
Qed.
